(** * MommyDent: the tooth catalog, the search filter and the selection state

    A shallow embedding of [src/components/DentalPregnancyLanding.tsx].

    - JavaScript strings are sequences of UTF-16 code units: [jsstring] is
      [list N].
    - Identifiers are JavaScript numbers that only ever hold integers: [Z].
    - [useState] cells are fields of the record [State]; the handlers wired
      in the JSX are the cases of [handle], and [offered] tells which of
      them the screen gives access to.
    - What a component returns is modelled as data (the list of props of the
      placeholders, the optional card of the info panel).
    - Coordinates of the 3D layout are exact rationals. *)

From Stdlib Require Import ZArith NArith QArith Qpower Lia Lqa DecimalString.
From stdpp Require Import base list numbers strings.

Open Scope Z_scope.

(** ** JavaScript strings *)

Abbreviation jsstring := (list N).

(** An ASCII literal of the source as code units. *)
Definition lit (s : string) : jsstring :=
  Ascii.N_of_ascii <$> String.list_ascii_of_string s.

(** [WhiteSpace] and [LineTerminator] of ECMAScript, the code units that
    [String.prototype.trim] strips.  All of them are in the BMP. *)
Definition isWhiteSpace (c : N) : bool :=
  ((c =? 9) || (c =? 10) || (c =? 11) || (c =? 12) || (c =? 13) || (c =? 32)
   || (c =? 160) || (c =? 5760) || ((8192 <=? c) && (c <=? 8202))
   || (c =? 8232) || (c =? 8233) || (c =? 8239) || (c =? 8287)
   || (c =? 12288) || (c =? 65279))%N.

Fixpoint trimStart (s : jsstring) : jsstring :=
  match s with
  | c :: s' => if isWhiteSpace c then trimStart s' else s
  | [] => []
  end.

Definition trimEnd (s : jsstring) : jsstring :=
  reverse (trimStart (reverse s)).

Definition trim (s : jsstring) : jsstring := trimEnd (trimStart s).

(** [q.startsWith]-style test used by [includes]: [q] is a prefix of [s]. *)
Fixpoint isPrefix (q s : jsstring) : bool :=
  match q, s with
  | [], _ => true
  | _ :: _, [] => false
  | a :: q', b :: s' => (a =? b)%N && isPrefix q' s'
  end.

(** [s.includes(q)]: [q] occurs in [s] as a run of consecutive code units. *)
Fixpoint includes (s q : jsstring) : bool :=
  isPrefix q s ||
  match s with
  | [] => false
  | _ :: s' => includes s' q
  end.

(** The simple case mapping of Basic Latin, code unit by code unit. *)
Definition lowerUnit (c : N) : N :=
  if ((65 <=? c) && (c <=? 90))%N then (c + 32)%N else c.

Definition toLowerCaseLatin (s : jsstring) : jsstring := lowerUnit <$> s.

(** Code units on which [String.prototype.toLowerCase] is [lowerUnit]:
    Basic Latin and the em dash U+2014, which has no case mapping.  The
    strings of the catalog hold nothing else. *)
Definition plainUnit (c : N) : bool := ((c <? 128) || (c =? 8212))%N.

Definition plain (s : jsstring) : bool := forallb plainUnit s.

(** What the development asks of the runtime's [toLowerCase], whose Unicode
    tables are not part of the repository. *)
Definition LowerOnPlain (toLowerCase : jsstring → jsstring) : Prop :=
  ∀ s, plain s = true → toLowerCase s = toLowerCaseLatin s.

(** [String(n)] for an integer-valued number. *)
Definition numberToString (n : Z) : jsstring :=
  lit (NilZero.string_of_int (Z.to_int n)).

(** ** DATA: the catalog *)

Record ToothInfo := mkToothInfo {
  id : Z;
  name : jsstring;
  blurb : jsstring
}.

#[global] Instance ToothInfo_eq_dec : EqDecision ToothInfo.
Proof. solve_decision. Defined.

Definition names : list jsstring := lit <$> [
  "Molar kanan atas (3rd)";
  "Molar kanan atas (2nd)";
  "Molar kanan atas (1st)";
  "Premolar kanan atas (2nd)";
  "Premolar kanan atas (1st)";
  "Caninus kanan atas";
  "Insisivus lateral kanan atas";
  "Insisivus sentral kanan atas";
  "Insisivus sentral kiri atas";
  "Insisivus lateral kiri atas";
  "Caninus kiri atas";
  "Premolar kiri atas (1st)";
  "Premolar kiri atas (2nd)";
  "Molar kiri atas (1st)";
  "Molar kiri atas (2nd)";
  "Molar kiri atas (3rd)";
  "Molar kanan bawah (3rd)";
  "Molar kanan bawah (2nd)";
  "Molar kanan bawah (1st)";
  "Premolar kanan bawah (2nd)";
  "Premolar kanan bawah (1st)";
  "Caninus kanan bawah";
  "Insisivus lateral kanan bawah";
  "Insisivus sentral kanan bawah";
  "Insisivus sentral kiri bawah";
  "Insisivus lateral kiri bawah";
  "Caninus kiri bawah";
  "Premolar kiri bawah (1st)";
  "Premolar kiri bawah (2nd)";
  "Molar kiri bawah (1st)";
  "Molar kiri bawah (2nd)";
  "Molar kiri bawah (3rd)"
].

(** U+2014 EM DASH, the one code unit of the tips outside ASCII. *)
Definition emDash : N := 8212%N.

Definition tips : list jsstring := [
  lit "Perubahan hormon saat hamil dapat meningkatkan risiko gingivitis. Sikat gigi lembut 2x sehari dan gunakan benang gigi.";
  lit "Mual muntah dapat mengikis email. Kumur air + 1 sdt baking soda setelah muntah, tunggu 30 menit baru sikat.";
  lit "Ngidam manis? Batasi frekuensi camilan bergula dan minum air putih setelahnya.";
  lit "Kontrol karang gigi (scaling) umumnya aman pada trimester 2. Konsultasikan jadwal dengan dokter gigi.";
  lit "Gunakan pasta gigi berfluor. Jika gusi mudah berdarah, jangan hentikan sikat gigi "
    ++ [emDash] ++ lit " fokuskan teknik lembut.";
  lit "X-ray gigi hanya bila perlu, dengan pelindung timah dan sesuai saran dokter.";
  lit "Obat bius lokal seperti lidokain umumnya dapat dipertimbangkan; selalu infokan status kehamilan.";
  lit "Gusi bengkak? Kompres dingin di pipi dapat membantu sementara, namun periksa jika nyeri berlanjut."
].

(** The callback of [Array.from({ length: 32 }, (_, i) => ...)].
    [names[i] ?? `Gigi ${id}`] falls back when the index is out of range;
    [tips[i % tips.length]] is read with the empty string standing for the
    [undefined] of an out-of-range read, which [tips_index_in_range] rules
    out. *)
Definition toothInfoAt (i : nat) : ToothInfo :=
  let id := Z.of_nat i + 1 in
  {| id := id;
     name := default (lit "Gigi " ++ numberToString id) (names !! i);
     blurb := default [] (tips !! (i mod length tips)%nat) |}.

Definition toothInfos : list ToothInfo := toothInfoAt <$> seq 0 32.

(** ** Layout of the teeth: 16 upper, 16 lower *)

(** The type [1 | -1] of the [mirror] prop. *)
Inductive Mirror := mirrorPos | mirrorNeg.

Definition mirrorVal (m : Mirror) : Z :=
  match m with mirrorPos => 1 | mirrorNeg => -1 end.

(** The props [TeethRow] hands to one [Tooth]; [onClick] is [onSelect] for
    every tooth, and the mesh's click handler calls it with [toothId]. *)
Record ToothProps := mkToothProps {
  toothId : Z;
  position : Q * Q * Q;
  isActive : bool
}.

(** One iteration of the loop [for (let i = 0; i < 16; i++)]. *)
Definition rowPosition (y : Q) (mirror : Mirror) (i : nat) : Q * Q * Q :=
  let t := ((inject_Z (Z.of_nat i) - 7.5) / 7.5)%Q in
  let x := (t * 3.6)%Q in
  let z := ((- (t ^ 2)) * 1.6 * inject_Z (mirrorVal mirror))%Q in
  (x, y, z).

Definition positions (y : Q) (mirror : Mirror) : list (Q * Q * Q) :=
  rowPosition y mirror <$> seq 0 16.

Definition rowId (mirror : Mirror) (i : nat) : Z :=
  match mirror with
  | mirrorPos => Z.of_nat i + 1
  | mirrorNeg => Z.of_nat i + 17
  end.

(** [activeId === id], for [activeId : number | null]. *)
Definition strictEq (activeId : option Z) (id : Z) : bool :=
  match activeId with
  | Some a => a =? id
  | None => false
  end.

Definition TeethRow (y : Q) (mirror : Mirror) (activeId : option Z)
  : list ToothProps :=
  imap (fun i p =>
          let id := rowId mirror i in
          {| toothId := id; position := p; isActive := strictEq activeId id |})
       (positions y mirror).

Definition TeethScene (activeId : option Z) : list ToothProps :=
  TeethRow 0.7 mirrorPos activeId ++ TeethRow (-0.7) mirrorNeg activeId.

(** ** The info panel *)

Definition disclaimer : jsstring :=
  lit "Catatan: Informasi ini bersifat edukatif, bukan pengganti diagnosis. Selalu konsultasikan dengan dokter gigi Anda.".

(** What the panel puts on screen: the card title, the paragraph and the
    note.  Its button "Tutup" calls [onClear]. *)
Record Card := mkCard {
  cardTitle : jsstring;
  cardText : jsstring;
  cardNote : jsstring
}.

(** [{activeTooth && (...)}]: nothing is rendered for [null]. *)
Definition InfoPanel (activeTooth : option ToothInfo) : option Card :=
  match activeTooth with
  | Some t =>
      Some {| cardTitle := name t; cardText := blurb t; cardNote := disclaimer |}
  | None => None
  end.

(** ** The component *)

(** The two [useState] cells. *)
Record State := mkState {
  activeId : option Z;
  query : jsstring
}.

Definition initial : State := {| activeId := None; query := [] |}.

Definition setActiveId (v : option Z) (st : State) : State :=
  {| activeId := v; query := query st |}.

Definition setQuery (v : jsstring) (st : State) : State :=
  {| activeId := activeId st; query := v |}.

(** [activeId ? toothInfos.find((t) => t.id === activeId) ?? null : null].
    The number 0 is falsy, like [null]. *)
Definition activeTooth (activeId : option Z) : option ToothInfo :=
  match activeId with
  | Some a =>
      if a =? 0 then None else List.find (fun t => id t =? a) toothInfos
  | None => None
  end.

(** The user's actions, one per handler of the JSX. *)
Inductive Event :=
  | InputChange (value : jsstring)  (* onChange: setQuery(e.target.value) *)
  | ResultClick (i : Z)             (* a result button: setActiveId(t.id) *)
  | ToothClick (i : Z)              (* a mesh: onClick(id), i.e. setActiveId *)
  | CloseClick.                     (* "Tutup": onClear, setActiveId(null) *)

Definition handle (e : Event) (st : State) : State :=
  match e with
  | InputChange v => setQuery v st
  | ResultClick i => setActiveId (Some i) st
  | ToothClick i => setActiveId (Some i) st
  | CloseClick => setActiveId None st
  end.

(** What is on screen in a state: the result buttons, the placeholders of
    the canvas and the info panel. *)
Record View := mkView {
  results : list ToothInfo;
  scene : list ToothProps;
  panel : option Card
}.

Section Runtime.

(** [String.prototype.toLowerCase] of the JavaScript runtime. *)
Variable toLowerCase : jsstring → jsstring.

(** The text a record is searched in: [t.name + " " + t.blurb]. *)
Definition haystack (t : ToothInfo) : jsstring :=
  name t ++ lit " " ++ blurb t.

(** The body of the [useMemo] that computes [filtered]; [!q] holds of the
    empty string only. *)
Definition filtered (query : jsstring) : list ToothInfo :=
  let q := toLowerCase (trim query) in
  if bool_decide (q = []) then take 8 toothInfos
  else take 8 (List.filter (fun t => includes (toLowerCase (haystack t)) q)
                           toothInfos).

(** The records that [filter] keeps for a normalized query. *)
Definition matching (q : jsstring) : list ToothInfo :=
  List.filter (λ t, includes (toLowerCase (haystack t)) q) toothInfos.

Definition render (st : State) : View :=
  {| results := filtered (query st);
     scene := TeethScene (activeId st);
     panel := InfoPanel (activeTooth (activeId st)) |}.

(** An action is offered when the control that triggers it is rendered. *)
Definition offered (st : State) (e : Event) : Prop :=
  match e with
  | InputChange _ => True
  | ResultClick i => ∃ t, t ∈ results (render st) ∧ id t = i
  | ToothClick i => ∃ p, p ∈ scene (render st) ∧ toothId p = i
  | CloseClick => is_Some (panel (render st))
  end.

Inductive reachable : State → Prop :=
  | reachable_initial : reachable initial
  | reachable_step st e :
      reachable st → offered st e → reachable (handle e st).

End Runtime.

(** ** Notions used to state the properties *)

(** [q] occurs in [s]. *)
Definition substring (q s : jsstring) : Prop :=
  ∃ pre post, s = pre ++ q ++ post.

(** The tip with index 5, the one about x-rays. *)
Definition xrayTip : jsstring :=
  lit "X-ray gigi hanya bila perlu, dengan pelindung timah dan sesuai saran dokter.".

(** The invariant of [activeId]: what it holds is the identifier of a
    record of the catalog. *)
Definition selectionValid (st : State) : Prop :=
  ∀ v, activeId st = Some v → ∃ t, t ∈ toothInfos ∧ id t = v.

(** ** The [Tooth] component *)

(** The colour of the material:
    [isActive ? "#87CEFA" : hovered ? "#e7f0ff" : "#ffffff"]. *)
Definition toothColor (isActive hovered : bool) : jsstring :=
  if isActive then lit "#87CEFA"
  else if hovered then lit "#e7f0ff" else lit "#ffffff".

(** [isActive || hovered ? 1.12 : 1.0]. *)
Definition targetScale (isActive hovered : bool) : Q :=
  if isActive || hovered then 1.12%Q else 1.0%Q.

(** [s.x += (targetScale - s.x) * 0.2], in exact arithmetic. *)
Definition approach (target s : Q) : Q := (s + (target - s) * 0.2)%Q.

(** The callback of [useFrame]: nothing happens while [ref.current] is
    not set, otherwise the three components of the scale move towards the
    target. *)
Definition frame (isActive hovered : bool) (ref : option (Q * Q * Q))
  : option (Q * Q * Q) :=
  match ref with
  | None => None
  | Some (sx, sy, sz) =>
      let t := targetScale isActive hovered in
      Some (approach t sx, approach t sy, approach t sz)
  end.


(** ** Sequences of actions *)

(** The handlers run one after the other, in the order of the events. *)
Definition run (es : list Event) (st : State) : State :=
  foldl (λ s e, handle e s) st es.

(** What an action writes to the cell [activeId], if it writes to it. *)
Definition selectionWritten (e : Event) : option (option Z) :=
  match e with
  | ResultClick i | ToothClick i => Some (Some i)
  | CloseClick => Some None
  | InputChange _ => None
  end.

(** What an action writes to the cell [query], if it writes to it. *)
Definition queryWritten (e : Event) : option jsstring :=
  match e with
  | InputChange v => Some v
  | _ => None
  end.

(** ** The search box *)

(** The [placeholder] of the input. *)
Definition searchPlaceholder : jsstring :=
  lit "Cari: gingivitis, mual, x-ray, scaling...".

(** The four terms the placeholder suggests. *)
Definition suggestedTerms : list jsstring :=
  [lit "gingivitis"; lit "mual"; lit "x-ray"; lit "scaling"].

(** * Properties *)

(** ** Strings *)

Lemma isPrefix_spec q s : isPrefix q s = true ↔ ∃ post, s = q ++ post.
Proof.
  revert s. induction q as [|a q IH]; intros s; simpl.
  - split; [intros _; by exists s | done].
  - destruct s as [|b s].
    + split; [done | intros [post Hp]; discriminate].
    + rewrite andb_true_iff, N.eqb_eq, IH. split.
      * intros [-> [post ->]]. by exists post.
      * intros [post Hp]. injection Hp as -> ->. eauto.
Qed.

Lemma includes_spec s q : includes s q = true ↔ substring q s.
Proof.
  unfold substring. induction s as [|b s IH]; simpl.
  - rewrite orb_false_r, isPrefix_spec. split.
    + intros [post Hp]. by exists [], post.
    + intros (pre & post & Hp). symmetry in Hp.
      apply app_eq_nil in Hp as [-> Hp]. eauto.
  - rewrite orb_true_iff, isPrefix_spec, IH. split.
    + intros [[post Hp] | (pre & post & ->)].
      * by exists [], post.
      * by exists (b :: pre), post.
    + intros ([|c pre] & post & Hp); simpl in Hp.
      * left. eauto.
      * injection Hp as -> ->. right. eauto.
Qed.

Lemma includes_empty s : includes s [] = true.
Proof. apply includes_spec. by exists [], s. Qed.

Lemma trimStart_spec s :
  ∃ pre, s = pre ++ trimStart s
         ∧ Forall (λ c, isWhiteSpace c = true) pre
         ∧ head (isWhiteSpace <$> trimStart s) ≠ Some true.
Proof.
  induction s as [|c s (pre & Hs & Hpre & Hhd)]; simpl.
  - by exists [].
  - destruct (isWhiteSpace c) eqn:Hc.
    + exists (c :: pre). split_and!; [simpl; congruence | by constructor | done].
    + exists []. split_and!; [done | constructor |]. simpl. by rewrite Hc.
Qed.

Lemma trimEnd_spec s :
  ∃ post, s = trimEnd s ++ post
          ∧ Forall (λ c, isWhiteSpace c = true) post
          ∧ last (isWhiteSpace <$> trimEnd s) ≠ Some true.
Proof.
  unfold trimEnd.
  destruct (trimStart_spec (reverse s)) as (pre & Hs & Hpre & Hhd).
  exists (reverse pre). split_and!.
  - rewrite <- reverse_app, <- Hs. by rewrite reverse_involutive.
  - by apply Forall_reverse.
  - rewrite fmap_reverse, last_reverse. done.
Qed.

Lemma trimEnd_head s :
  head (isWhiteSpace <$> s) ≠ Some true →
  head (isWhiteSpace <$> trimEnd s) ≠ Some true.
Proof.
  destruct (trimEnd_spec s) as (post & Hs & Hpost & Hlast).
  destruct (trimEnd s) as [|c r] eqn:Hr; [done |].
  rewrite Hs. done.
Qed.

(** [trim] removes a run of white space at each end and leaves a string
    that neither starts nor ends with white space. *)
Lemma trim_spec s :
  ∃ pre post,
    s = pre ++ trim s ++ post
    ∧ Forall (λ c, isWhiteSpace c = true) pre
    ∧ Forall (λ c, isWhiteSpace c = true) post
    ∧ head (isWhiteSpace <$> trim s) ≠ Some true
    ∧ last (isWhiteSpace <$> trim s) ≠ Some true.
Proof.
  unfold trim.
  destruct (trimStart_spec s) as (pre & Hs & Hpre & Hhd).
  destruct (trimEnd_spec (trimStart s)) as (post & Ht & Hpost & Hlast).
  exists pre, post. split_and!; try done.
  - by rewrite <- Ht.
  - by apply trimEnd_head.
Qed.

(** ** The catalog *)

Lemma length_names : length names = 32%nat.
Proof. reflexivity. Qed.

Lemma length_tips : length tips = 8%nat.
Proof. reflexivity. Qed.

Lemma names_nonempty : Forall (λ n, n ≠ []) names.
Proof. unfold names. repeat constructor; discriminate. Qed.

Lemma Some_default {A} (d : A) (o : option A) :
  is_Some o → o = Some (default d o).
Proof. by intros [x ->]. Qed.

(** The index [i % tips.length] never leaves [tips]. *)
Lemma tips_index_in_range (i : nat) : is_Some (tips !! (i mod length tips)%nat).
Proof.
  apply lookup_lt_is_Some. rewrite length_tips.
  apply Nat.mod_upper_bound. lia.
Qed.

Lemma length_toothInfos : length toothInfos = 32%nat.
Proof. unfold toothInfos. by rewrite length_fmap, length_seq. Qed.

Lemma toothInfos_lookup (i : nat) :
  (i < 32)%nat → toothInfos !! i = Some (toothInfoAt i).
Proof.
  intros Hi. unfold toothInfos.
  by rewrite list_lookup_fmap, lookup_seq_lt.
Qed.

Lemma toothInfos_ids : id <$> toothInfos = seqZ 1 32.
Proof. reflexivity. Qed.

Lemma NoDup_toothInfos_ids : NoDup (id <$> toothInfos).
Proof. rewrite toothInfos_ids. apply NoDup_seqZ. Qed.

Lemma NoDup_toothInfos : NoDup toothInfos.
Proof. eapply NoDup_fmap_1, NoDup_toothInfos_ids. Qed.

(** The identifiers of the catalog are the integers from 1 to 32. *)
Lemma toothInfos_id_range (v : Z) :
  (∃ t, t ∈ toothInfos ∧ id t = v) ↔ 1 ≤ v ≤ 32.
Proof.
  transitivity (v ∈ id <$> toothInfos).
  - rewrite list_elem_of_fmap. split.
    + intros (t & Ht & <-). eauto.
    + intros (t & -> & Ht). eauto.
  - rewrite toothInfos_ids, elem_of_seqZ. lia.
Qed.

Lemma toothInfos_elem_id (t : ToothInfo) :
  t ∈ toothInfos → toothInfos !! Z.to_nat (id t - 1) = Some t.
Proof.
  intros Ht. apply list_elem_of_lookup in Ht as [i Hi].
  assert (i < 32)%nat as Hlt.
  { rewrite <- length_toothInfos. eapply lookup_lt_Some, Hi. }
  rewrite toothInfos_lookup in Hi by done.
  assert (t = toothInfoAt i) as -> by congruence.
  simpl. replace (Z.to_nat (Z.of_nat i + 1 - 1)) with i by lia.
  by apply toothInfos_lookup.
Qed.

(** C2.  The catalog holds exactly 32 records; the record at index [i] has
    [id = i + 1], so the identifiers are unique and run from 1 upwards; its
    name is not empty; its tip is the entry [(id - 1) mod 8] of the list of
    8 tips. *)
Theorem catalog_records :
  length toothInfos = 32%nat
  ∧ length tips = 8%nat
  ∧ NoDup (id <$> toothInfos)
  ∧ ∀ i : nat, (i < 32)%nat →
      ∃ t, toothInfos !! i = Some t
           ∧ id t = Z.of_nat i + 1
           ∧ name t ≠ []
           ∧ tips !! Z.to_nat ((id t - 1) mod 8) = Some (blurb t)
           ∧ blurb t ∈ tips.
Proof.
  split_and!;
    [apply length_toothInfos | apply length_tips | apply NoDup_toothInfos_ids |].
  intros i Hi. exists (toothInfoAt i).
  assert (tips !! Z.to_nat ((id (toothInfoAt i) - 1) mod 8)
          = Some (blurb (toothInfoAt i))) as Htip.
  { cbn [toothInfoAt id blurb]. rewrite Z.add_simpl_r.
    change 8 with (Z.of_nat (length tips)).
    rewrite <- Nat2Z.inj_mod, Nat2Z.id.
    apply Some_default, tips_index_in_range. }
  split_and!; [by apply toothInfos_lookup | done | | done |].
  - assert (is_Some (names !! i)) as [n Hn].
    { apply lookup_lt_is_Some. by rewrite length_names. }
    change (name (toothInfoAt i))
      with (default (lit "Gigi " ++ numberToString (Z.of_nat i + 1)) (names !! i)).
    rewrite Hn. simpl.
    eapply (Forall_lookup_1 _ _ _ _ names_nonempty Hn).
  - eapply list_elem_of_lookup_2, Htip.
Qed.

(** Witness of [catalog_records] at the last index. *)
Lemma catalog_records_witness :
  ∃ t, toothInfos !! 31%nat = Some t
       ∧ id t = 32
       ∧ name t ≠ []
       ∧ tips !! Z.to_nat ((id t - 1) mod 8) = Some (blurb t)
       ∧ blurb t ∈ tips.
Proof.
  apply (proj2 (proj2 (proj2 catalog_records)) 31%nat). lia.
Defined.

(** ** The search filter *)

Lemma filter_sublist {A} (f : A → bool) (l : list A) :
  List.filter f l `sublist_of` l.
Proof.
  induction l as [|x l IH]; simpl; [constructor |].
  destruct (f x); by constructor.
Qed.

Lemma elem_of_filter {A} (f : A → bool) (l : list A) (x : A) :
  x ∈ List.filter f l ↔ x ∈ l ∧ f x = true.
Proof. rewrite !list_elem_of_In. apply filter_In. Qed.

Section Filter.

Variable toLowerCase : jsstring → jsstring.

Lemma filtered_empty (query : jsstring) :
  toLowerCase (trim query) = [] →
  filtered toLowerCase query = take 8 toothInfos.
Proof. intros Hq. unfold filtered. by rewrite Hq. Qed.

Lemma filtered_nonempty (query : jsstring) :
  toLowerCase (trim query) ≠ [] →
  filtered toLowerCase query = take 8 (matching toLowerCase (toLowerCase (trim query))).
Proof.
  intros Hq. unfold filtered, matching.
  destruct (bool_decide_reflect (toLowerCase (trim query) = [])) as [He|_];
    [by destruct Hq | reflexivity].
Qed.

Lemma matching_sublist (q : jsstring) : matching toLowerCase q `sublist_of` toothInfos.
Proof. apply filter_sublist. Qed.

Lemma elem_of_matching (q : jsstring) (t : ToothInfo) :
  t ∈ matching toLowerCase q ↔ t ∈ toothInfos ∧ substring q (toLowerCase (haystack t)).
Proof. unfold matching. by rewrite elem_of_filter, includes_spec. Qed.

(** Every record matches the empty query, so that the two branches of
    [filtered] agree there. *)
Lemma matching_empty : matching toLowerCase [] = toothInfos.
Proof.
  unfold matching. apply forallb_filter_id, forallb_forall.
  intros t _. apply includes_empty.
Qed.

Lemma filtered_sublist (query : jsstring) :
  filtered toLowerCase query `sublist_of` toothInfos.
Proof.
  unfold filtered. case_bool_decide.
  - apply sublist_take.
  - etrans; [apply sublist_take | apply filter_sublist].
Qed.

Lemma filtered_length (query : jsstring) :
  (length (filtered toLowerCase query) ≤ 8)%nat.
Proof. unfold filtered. case_bool_decide; rewrite length_take; lia. Qed.

Lemma filtered_elem_of (query : jsstring) (t : ToothInfo) :
  t ∈ filtered toLowerCase query → t ∈ toothInfos.
Proof. intros Ht. eapply elem_of_sublist, filtered_sublist. exact Ht. Qed.

End Filter.

(** *** The runtime's [toLowerCase] on the strings of the catalog *)

Lemma plain_Forall (s : jsstring) :
  plain s = true ↔ Forall (λ c, plainUnit c = true) s.
Proof.
  unfold plain. induction s as [|c s IH]; simpl.
  - split; [constructor | done].
  - by rewrite andb_true_iff, IH, Forall_cons.
Qed.

Lemma Forall_trimStart (P : N → Prop) (s : jsstring) :
  Forall P s → Forall P (trimStart s).
Proof.
  induction 1 as [|c s Hc Hs IH]; simpl; [constructor |].
  destruct (isWhiteSpace c); [done | by constructor].
Qed.

Lemma plain_trim (s : jsstring) : plain s = true → plain (trim s) = true.
Proof.
  rewrite !plain_Forall. intros Hs. unfold trim, trimEnd.
  by apply Forall_reverse, Forall_trimStart, Forall_reverse, Forall_trimStart.
Qed.

Lemma plain_toLowerCaseLatin (s : jsstring) :
  plain s = true → plain (toLowerCaseLatin s) = true.
Proof.
  rewrite !plain_Forall. unfold toLowerCaseLatin. rewrite Forall_fmap.
  intros Hs. eapply Forall_impl; [exact Hs |].
  intros c. unfold plainUnit, lowerUnit, compose.
  destruct (_ && _)%N eqn:Hup; [| done].
  intros _. apply andb_true_iff in Hup as [_ Hle%N.leb_le].
  apply orb_true_iff. left. apply N.ltb_lt. lia.
Qed.

Lemma haystack_plain : Forall (λ t, plain (haystack t) = true) toothInfos.
Proof.
  apply Forall_forall. intros t Ht.
  assert (forallb (λ t, plain (haystack t)) toothInfos = true) as Hall
    by (vm_compute; reflexivity).
  rewrite forallb_forall in Hall. by apply Hall, list_elem_of_In.
Qed.

(** On a query of plain code units, any runtime whose [toLowerCase] is the
    Basic Latin mapping there computes what [toLowerCaseLatin] computes. *)
Lemma filtered_plain (toLowerCase : jsstring → jsstring) (query : jsstring) :
  LowerOnPlain toLowerCase → plain query = true →
  filtered toLowerCase query = filtered toLowerCaseLatin query.
Proof.
  intros Hlow Hq. unfold filtered.
  rewrite (Hlow (trim query)) by by apply plain_trim.
  destruct (bool_decide_reflect (toLowerCaseLatin (trim query) = [])); [done |].
  f_equal. apply filter_ext_in. intros t Ht%list_elem_of_In.
  rewrite Hlow; [done |].
  by apply (proj1 (Forall_forall _ _) haystack_plain).
Qed.

Lemma LowerOnPlain_Latin : LowerOnPlain toLowerCaseLatin.
Proof. by intros s _. Qed.

(** *** Claims about the search filter *)

(** C1, as amended.  The query is normalized by [trim] and [toLowerCase].
    If the normalized query is empty the result is the first 8 records of
    the catalog, in catalog order.  Otherwise it is the first at most 8, in
    catalog order, of the records for which the name, one space and the tip,
    concatenated in that order and lowercased, contain the normalized query
    as a substring; the other records are excluded. *)
Theorem filtered_spec (toLowerCase : jsstring → jsstring) (query : jsstring) :
  let q := toLowerCase (trim query) in
  (q = [] → filtered toLowerCase query = take 8 toothInfos)
  ∧ (q ≠ [] →
     ∃ matches,
       filtered toLowerCase query = take 8 matches
       ∧ matches `sublist_of` toothInfos
       ∧ ∀ t, t ∈ matches ↔
              t ∈ toothInfos
              ∧ substring q (toLowerCase (name t ++ lit " " ++ blurb t))).
Proof.
  intros q. split.
  - apply filtered_empty.
  - intros Hq. exists (matching toLowerCase q). split_and!.
    + by apply filtered_nonempty.
    + apply matching_sublist.
    + apply elem_of_matching.
Qed.

(** Witness of [filtered_spec]: the query ["  X-Ray "] is normalized to
    ["x-ray"], which is not empty. *)
Lemma filtered_spec_witness :
  ∃ matches,
    filtered toLowerCaseLatin (lit "  X-Ray ") = take 8 matches
    ∧ matches `sublist_of` toothInfos
    ∧ ∀ t, t ∈ matches ↔
           t ∈ toothInfos
           ∧ substring (lit "x-ray")
                       (toLowerCaseLatin (name t ++ lit " " ++ blurb t)).
Proof.
  apply (proj2 (filtered_spec toLowerCaseLatin (lit "  X-Ray "))).
  vm_compute. discriminate.
Defined.

(** C1, as stated, fails: for the query ["atas x-ray"] the result holds
    record 6, "Caninus kanan atas", whose name directly followed by its tip,
    lowercased, does not contain the query.  The match runs over the space
    that the code puts between the name and the tip. *)
Lemma filtered_not_name_tip_juxtaposed :
  let query := lit "atas x-ray" in
  let q := toLowerCaseLatin (trim query) in
  q ≠ []
  ∧ ∃ t, t ∈ filtered toLowerCaseLatin query
         ∧ id t = 6
         ∧ ¬ substring q (toLowerCaseLatin (name t ++ blurb t)).
Proof.
  split; [vm_compute; discriminate |].
  exists (toothInfoAt 5). split_and!.
  - apply list_elem_of_In. vm_compute. by left.
  - reflexivity.
  - rewrite <- includes_spec. vm_compute. discriminate.
Qed.

(** C4.  Whatever the query, the result has at most 8 elements and is a
    subsequence of the catalog: its elements come in catalog order. *)
Theorem filtered_capped_in_order
    (toLowerCase : jsstring → jsstring) (query : jsstring) :
  (length (filtered toLowerCase query) ≤ 8)%nat
  ∧ filtered toLowerCase query `sublist_of` toothInfos.
Proof. split; [apply filtered_length | apply filtered_sublist]. Qed.

Lemma filtered_xray_Latin :
  filtered toLowerCaseLatin (lit "x-ray")
  = [toothInfoAt 5; toothInfoAt 13; toothInfoAt 21; toothInfoAt 29].
Proof. vm_compute. reflexivity. Qed.

Lemma blurb_plain : Forall (λ t, plain (blurb t) = true) toothInfos.
Proof.
  apply Forall_forall. intros t Ht.
  assert (forallb (λ t, plain (blurb t)) toothInfos = true) as Hall
    by (vm_compute; reflexivity).
  rewrite forallb_forall in Hall. by apply Hall, list_elem_of_In.
Qed.

Lemma xray_tips_Latin :
  Forall (λ t, includes (toLowerCaseLatin (blurb t)) (lit "x-ray") = true
               ↔ t ∈ filtered toLowerCaseLatin (lit "x-ray")
                 ∧ tips !! 5%nat = Some (blurb t))
         toothInfos.
Proof.
  rewrite filtered_xray_Latin.
  assert (Forall (λ t, includes (toLowerCaseLatin (blurb t)) (lit "x-ray")
                       = bool_decide
                           (t ∈ [toothInfoAt 5; toothInfoAt 13;
                                 toothInfoAt 21; toothInfoAt 29]
                            ∧ tips !! 5%nat = Some (blurb t)))
                 toothInfos) as Hall.
  { apply (bool_decide_unpack _). vm_compute. exact I. }
  eapply Forall_impl; [exact Hall |].
  intros t ->. apply bool_decide_eq_true.
Qed.

(** C8.  For the query ["x-ray"] the result is made of the records whose
    tip mentions x-ray, which are the records with the tip of index 5, with
    identifiers 6, 14, 22 and 30; it has no more than 8 elements. *)
Theorem filtered_xray (toLowerCase : jsstring → jsstring) :
  LowerOnPlain toLowerCase →
  let r := filtered toLowerCase (lit "x-ray") in
  id <$> r = [6; 14; 22; 30]
  ∧ tips !! 5%nat = Some xrayTip
  ∧ (∀ t, t ∈ toothInfos →
          substring (lit "x-ray") (toLowerCase (blurb t)) ↔
          t ∈ r ∧ tips !! 5%nat = Some (blurb t))
  ∧ (length r ≤ 8)%nat.
Proof.
  intros Hlow r. subst r.
  rewrite (filtered_plain toLowerCase) by done.
  split_and!.
  - by rewrite filtered_xray_Latin.
  - reflexivity.
  - intros t Ht. rewrite <- includes_spec.
    rewrite Hlow by by apply (proj1 (Forall_forall _ _) blurb_plain).
    by apply (proj1 (Forall_forall _ _) xray_tips_Latin).
  - apply filtered_length.
Qed.

(** Witness of [filtered_xray] for the Basic Latin mapping. *)
Lemma filtered_xray_witness :
  LowerOnPlain toLowerCaseLatin
  ∧ id <$> filtered toLowerCaseLatin (lit "x-ray") = [6; 14; 22; 30].
Proof.
  split; [exact LowerOnPlain_Latin |].
  apply (filtered_xray toLowerCaseLatin LowerOnPlain_Latin).
Defined.

(** ** The active record *)

Lemma activeTooth_Some (v : Z) (t : ToothInfo) :
  activeTooth (Some v) = Some t → t ∈ toothInfos ∧ id t = v ∧ v ≠ 0.
Proof.
  unfold activeTooth. destruct (Z.eqb_spec v 0) as [|Hv]; [done |].
  intros [Ht Hid]%find_some. apply Z.eqb_eq in Hid.
  by rewrite list_elem_of_In.
Qed.

Lemma activeTooth_None (v : Z) :
  (∀ t, t ∈ toothInfos → id t ≠ v) → activeTooth (Some v) = None.
Proof.
  intros Hv. destruct (activeTooth (Some v)) as [t|] eqn:Ht; [| done].
  apply activeTooth_Some in Ht as (Ht & Hid & _). by destruct (Hv t).
Qed.

Lemma activeTooth_catalog (t : ToothInfo) :
  t ∈ toothInfos → activeTooth (Some (id t)) = Some t.
Proof.
  intros Ht. unfold activeTooth.
  assert (1 ≤ id t ≤ 32) as Hr by (apply toothInfos_id_range; eauto).
  destruct (Z.eqb_spec (id t) 0) as [|_]; [lia |].
  destruct (List.find _ toothInfos) as [t'|] eqn:Hfind.
  - apply find_some in Hfind as [Ht'%list_elem_of_In Hid%Z.eqb_eq].
    f_equal. apply toothInfos_elem_id in Ht, Ht'. congruence.
  - apply list_elem_of_In in Ht.
    pose proof (find_none _ _ Hfind _ Ht) as Hne. simpl in Hne.
    by rewrite Z.eqb_refl in Hne.
Qed.

(** ** The selection state machine *)

Lemma TeethScene_ids (a : option Z) : toothId <$> TeethScene a = seqZ 1 32.
Proof. reflexivity. Qed.

Lemma TeethScene_id_range (a : option Z) (p : ToothProps) :
  p ∈ TeethScene a → 1 ≤ toothId p ≤ 32.
Proof.
  intros Hp. apply (list_elem_of_fmap_2 toothId) in Hp.
  rewrite TeethScene_ids, elem_of_seqZ in Hp. lia.
Qed.

Section Machine.

Variable toLowerCase : jsstring → jsstring.

Lemma selectionValid_initial : selectionValid initial.
Proof. intros v Hv. discriminate. Qed.

Lemma selectionValid_step (st : State) (e : Event) :
  selectionValid st → offered toLowerCase st e →
  selectionValid (handle e st).
Proof.
  intros Hst He v. destruct e as [q|i|i|]; simpl in *.
  - apply Hst.
  - destruct He as (t & Ht & <-). intros [= <-].
    exists t. split; [| done]. by eapply filtered_elem_of.
  - destruct He as (p & Hp & <-). intros [= <-].
    eapply toothInfos_id_range, TeethScene_id_range, Hp.
  - done.
Qed.

Lemma reachable_selectionValid (st : State) :
  reachable toLowerCase st → selectionValid st.
Proof.
  induction 1 as [|st e _ IH He].
  - apply selectionValid_initial.
  - by apply selectionValid_step.
Qed.

(** In a state that satisfies the invariant the panel is on screen
    exactly when a tooth is selected, and shows that tooth's record. *)
Lemma panel_selectionValid (st : State) :
  selectionValid st →
  match activeId st with
  | Some i =>
      ∃ t, t ∈ toothInfos ∧ id t = i
           ∧ panel (render toLowerCase st)
             = Some {| cardTitle := name t; cardText := blurb t;
                       cardNote := disclaimer |}
  | None => panel (render toLowerCase st) = None
  end.
Proof.
  intros Hst. unfold render. simpl.
  destruct (activeId st) as [i|] eqn:Hi; [| done].
  destruct (Hst i Hi) as (t & Ht & <-).
  exists t. split_and!; [done | done |].
  by rewrite activeTooth_catalog.
Qed.

End Machine.

(** Every placeholder of the scene can be clicked, whatever the state. *)
Lemma offered_ToothClick (toLowerCase : jsstring → jsstring)
    (st : State) (i : Z) :
  1 ≤ i ≤ 32 → offered toLowerCase st (ToothClick i).
Proof.
  intros Hi. simpl.
  assert (i ∈ toothId <$> TeethScene (activeId st)) as Hin
    by (rewrite TeethScene_ids, elem_of_seqZ; lia).
  apply list_elem_of_fmap in Hin as (p & -> & Hp). eauto.
Qed.

(** *** Claims about the selection *)

(** C3.  The machine starts with no selection.  A click on a search result
    or on a placeholder replaces the selection by the clicked identifier in
    one step, from any state; the dismiss action clears it.  In the states
    the user can reach, the info panel shows the name and the tip of the
    record with the selected identifier when there is a selection, and
    nothing otherwise. *)
Theorem selection_machine (toLowerCase : jsstring → jsstring) :
  activeId initial = None
  ∧ (∀ st i, handle (ResultClick i) st
             = {| activeId := Some i; query := query st |})
  ∧ (∀ st i, handle (ToothClick i) st
             = {| activeId := Some i; query := query st |})
  ∧ (∀ st, handle CloseClick st = {| activeId := None; query := query st |})
  ∧ (∀ st, reachable toLowerCase st →
       match activeId st with
       | Some i =>
           ∃ t, t ∈ toothInfos ∧ id t = i
                ∧ panel (render toLowerCase st)
                  = Some {| cardTitle := name t; cardText := blurb t;
                            cardNote := disclaimer |}
       | None => panel (render toLowerCase st) = None
       end).
Proof.
  split_and!; try done.
  intros st Hst.
  apply panel_selectionValid, (reachable_selectionValid toLowerCase), Hst.
Qed.

(** Witness of [selection_machine]: tooth 5 clicked in the initial state. *)
Lemma selection_machine_witness :
  let st := handle (ToothClick 5) initial in
  reachable toLowerCaseLatin st
  ∧ ∃ t, t ∈ toothInfos ∧ id t = 5
         ∧ panel (render toLowerCaseLatin st)
           = Some {| cardTitle := name t; cardText := blurb t;
                     cardNote := disclaimer |}.
Proof.
  intros st.
  assert (reachable toLowerCaseLatin st) as Hst.
  { apply reachable_step; [apply reachable_initial |].
    apply offered_ToothClick. lia. }
  split; [exact Hst |].
  exact (proj2 (proj2 (proj2 (proj2 (selection_machine toLowerCaseLatin))))
               st Hst).
Defined.

(** C5.  The invariant holds initially, every action the screen offers
    preserves it, and so in every reachable state a present selection is
    the identifier of a record of the catalog, an integer from 1 to 32. *)
Theorem selection_invariant (toLowerCase : jsstring → jsstring) :
  selectionValid initial
  ∧ (∀ st e, selectionValid st → offered toLowerCase st e →
             selectionValid (handle e st))
  ∧ (∀ st v, reachable toLowerCase st → activeId st = Some v →
             (∃ t, t ∈ toothInfos ∧ id t = v) ∧ 1 ≤ v ≤ 32).
Proof.
  split_and!.
  - apply selectionValid_initial.
  - apply selectionValid_step.
  - intros st v Hst Hv.
    pose proof (reachable_selectionValid toLowerCase st Hst v Hv) as Hin.
    split; [done | by apply toothInfos_id_range].
Qed.

(** Witness of [selection_invariant]: tooth 17, the first of the lower
    row, clicked in the initial state. *)
Lemma selection_invariant_witness :
  let st := handle (ToothClick 17) initial in
  reachable toLowerCaseLatin st
  ∧ activeId st = Some 17
  ∧ (∃ t, t ∈ toothInfos ∧ id t = 17) ∧ 1 ≤ 17 ≤ 32.
Proof.
  intros st.
  assert (reachable toLowerCaseLatin st) as Hst.
  { apply reachable_step; [apply reachable_initial |].
    apply offered_ToothClick. lia. }
  split; [exact Hst |]. split; [reflexivity |].
  exact (proj2 (proj2 (selection_invariant toLowerCaseLatin))
               st 17 Hst eq_refl).
Defined.

(** C6.  Selecting the same identifier twice in a row gives the state that
    selecting it once gives, with that identifier selected; this holds for
    the result buttons, for the placeholders and for one after the other. *)
Theorem select_idempotent (st : State) (i : Z) :
  handle (ResultClick i) (handle (ResultClick i) st)
    = handle (ResultClick i) st
  ∧ handle (ToothClick i) (handle (ToothClick i) st)
    = handle (ToothClick i) st
  ∧ handle (ToothClick i) (handle (ResultClick i) st)
    = handle (ResultClick i) st
  ∧ handle (ResultClick i) (handle (ToothClick i) st)
    = handle (ToothClick i) st
  ∧ activeId (handle (ToothClick i) (handle (ToothClick i) st)) = Some i
  ∧ activeId (handle (ResultClick i) (handle (ResultClick i) st)) = Some i.
Proof. by split_and!. Qed.

(** C7.  When the selection holds a value that is the identifier of no
    record, there is no active record and the panel renders nothing, as with
    no selection; [activeTooth] and [InfoPanel] are total, nothing is
    raised. *)
Theorem unknown_id_no_panel (v : Z) :
  (∀ t, t ∈ toothInfos → id t ≠ v) →
  activeTooth (Some v) = None
  ∧ InfoPanel (activeTooth (Some v)) = None
  ∧ InfoPanel (activeTooth (Some v)) = InfoPanel (activeTooth None)
  ∧ ∀ toLowerCase q,
      panel (render toLowerCase {| activeId := Some v; query := q |})
      = panel (render toLowerCase {| activeId := None; query := q |}).
Proof.
  intros Hv. pose proof (activeTooth_None v Hv) as Hnone.
  split_and!; [done | by rewrite Hnone | by rewrite Hnone |].
  intros toLowerCase q.
  change (InfoPanel (activeTooth (Some v)) = InfoPanel (activeTooth None)).
  by rewrite Hnone.
Qed.

(** Witness of [unknown_id_no_panel]: 33 is past the last identifier. *)
Lemma unknown_id_no_panel_witness :
  (∀ t, t ∈ toothInfos → id t ≠ 33)
  ∧ activeTooth (Some 33) = None
  ∧ InfoPanel (activeTooth (Some 33)) = None.
Proof.
  assert (∀ t, t ∈ toothInfos → id t ≠ 33) as Hv.
  { intros t Ht Hid.
    assert (1 ≤ 33 ≤ 32) by (apply toothInfos_id_range; eauto). lia. }
  split; [exact Hv |].
  split; apply (unknown_id_no_panel 33 Hv).
Defined.

(** C10.  Typing a query leaves the selection as it was; selecting and
    dismissing leave the query as it was; the list of results is the same
    in two states with the same query, whatever their selections. *)
Theorem query_selection_independent (toLowerCase : jsstring → jsstring) :
  (∀ st v, activeId (handle (InputChange v) st) = activeId st)
  ∧ (∀ st i, query (handle (ResultClick i) st) = query st)
  ∧ (∀ st i, query (handle (ToothClick i) st) = query st)
  ∧ (∀ st, query (handle CloseClick st) = query st)
  ∧ (∀ a1 a2 q,
       results (render toLowerCase {| activeId := a1; query := q |})
       = results (render toLowerCase {| activeId := a2; query := q |}))
  ∧ (∀ st, results (render toLowerCase st) = filtered toLowerCase (query st)).
Proof. by split_and!. Qed.

(** ** The layout of the scene *)

Lemma length_positions (y : Q) (m : Mirror) : length (positions y m) = 16%nat.
Proof. unfold positions. by rewrite length_fmap, length_seq. Qed.

Lemma length_TeethRow (y : Q) (m : Mirror) (a : option Z) :
  length (TeethRow y m a) = 16%nat.
Proof. unfold TeethRow. by rewrite length_imap, length_positions. Qed.

Lemma TeethRow_lookup (y : Q) (m : Mirror) (a : option Z) (i : nat) :
  (i < 16)%nat →
  TeethRow y m a !! i
  = Some {| toothId := rowId m i; position := rowPosition y m i;
            isActive := strictEq a (rowId m i) |}.
Proof.
  intros Hi. unfold TeethRow, positions.
  by rewrite list_lookup_imap, list_lookup_fmap, lookup_seq_lt.
Qed.

Lemma TeethRow_ids (y : Q) (m : Mirror) (a : option Z) :
  toothId <$> TeethRow y m a = seqZ (rowId m 0) 16.
Proof. by destruct m. Qed.

(** The curve of a row: [x] grows linearly with the index, from -3.6 to
    3.6, and [z] is quadratic in [x], towards the back for [mirror = 1] and
    towards the front for [mirror = -1]. *)
Lemma rowPosition_curve (y : Q) (m : Mirror) (i : nat) :
  ∃ x z,
    rowPosition y m i = (x, y, z)
    ∧ (x == 0.48 * inject_Z (Z.of_nat i) - 3.6)%Q
    ∧ (z == - inject_Z (mirrorVal m) * (1.6 * (x / 3.6) ^ 2))%Q.
Proof.
  unfold rowPosition. eexists _, _. split; [reflexivity |].
  split; [field |].
  destruct m; simpl; field.
Qed.

(** C9.  The scene has 32 placeholders in two rows of 16.  The row with
    [mirror = 1] carries the identifiers 1 to 16 and the row with
    [mirror = -1] the identifiers 17 to 32, so that every identifier from 1
    to 32 belongs to exactly one placeholder.  In a row the placeholders
    lie on a curve with [x] linear in the index and [z] quadratic in [x],
    mirrored between the two rows. *)
Theorem scene_layout (a : option Z) :
  length (TeethScene a) = 32%nat
  ∧ TeethScene a = TeethRow 0.7 mirrorPos a ++ TeethRow (-0.7) mirrorNeg a
  ∧ (∀ y m, length (TeethRow y m a) = 16%nat)
  ∧ toothId <$> TeethRow 0.7 mirrorPos a = seqZ 1 16
  ∧ toothId <$> TeethRow (-0.7) mirrorNeg a = seqZ 17 16
  ∧ (∀ p, p ∈ TeethScene a → 1 ≤ toothId p ≤ 32)
  ∧ (∀ v, 1 ≤ v ≤ 32 →
          ∃ k, (toothId <$> TeethScene a) !! k = Some v
               ∧ ∀ k', (toothId <$> TeethScene a) !! k' = Some v → k' = k)
  ∧ (∀ y m i, (i < 16)%nat →
          ∃ x z,
            TeethRow y m a !! i
            = Some {| toothId := rowId m i; position := (x, y, z);
                      isActive := strictEq a (rowId m i) |}
            ∧ (x == 0.48 * inject_Z (Z.of_nat i) - 3.6)%Q
            ∧ (z == - inject_Z (mirrorVal m) * (1.6 * (x / 3.6) ^ 2))%Q).
Proof.
  split_and!.
  - unfold TeethScene. by rewrite length_app, !length_TeethRow.
  - reflexivity.
  - intros y m. apply length_TeethRow.
  - apply TeethRow_ids.
  - apply TeethRow_ids.
  - apply TeethScene_id_range.
  - intros v Hv. rewrite TeethScene_ids. exists (Z.to_nat (v - 1)). split.
    + apply lookup_seqZ. lia.
    + intros k' Hk'%lookup_seqZ. lia.
  - intros y m i Hi.
    destruct (rowPosition_curve y m i) as (x & z & Hpos & Hx & Hz).
    exists x, z. split_and!; [| done | done].
    rewrite <- Hpos. by apply TeethRow_lookup.
Qed.

(** Witness of [scene_layout]: the last identifier, and the first tooth of
    the lower row. *)
Lemma scene_layout_witness :
  (∃ k, (toothId <$> TeethScene None) !! k = Some 32
        ∧ ∀ k', (toothId <$> TeethScene None) !! k' = Some 32 → k' = k)
  ∧ ∃ x z,
      TeethRow (-0.7) mirrorNeg None !! 0%nat
      = Some {| toothId := 17; position := (x, (-0.7)%Q, z);
                isActive := false |}
      ∧ (x == 0.48 * 0 - 3.6)%Q
      ∧ (z == - inject_Z (-1) * (1.6 * (x / 3.6) ^ 2))%Q.
Proof.
  pose proof (scene_layout None) as (_ & _ & _ & _ & _ & _ & Hid & Hpos).
  split.
  - apply Hid. lia.
  - apply (Hpos (-0.7)%Q mirrorNeg 0%nat). lia.
Defined.

(** ** Scenarios *)

(** Tooth 5, then tooth 12, then "Tutup". *)
Example select_5_then_12_then_close :
  let s1 := handle (ToothClick 5) initial in
  let s2 := handle (ResultClick 12) s1 in
  let s3 := handle CloseClick s2 in
  activeId s1 = Some 5 ∧ activeId s2 = Some 12 ∧ activeId s3 = None
  ∧ (cardTitle <$> InfoPanel (activeTooth (activeId s1)))
    = Some (lit "Premolar kanan atas (1st)")
  ∧ (cardTitle <$> InfoPanel (activeTooth (activeId s2)))
    = Some (lit "Premolar kiri atas (1st)")
  ∧ InfoPanel (activeTooth (activeId s3)) = None.
Proof. vm_compute. by split_and!. Qed.

(** The first and the last identifier denote distinct records. *)
Example first_and_last_record :
  (name <$> activeTooth (Some 1)) = Some (lit "Molar kanan atas (3rd)")
  ∧ (name <$> activeTooth (Some 32)) = Some (lit "Molar kiri bawah (3rd)").
Proof. vm_compute. by split. Qed.

(** A query of white space only is normalized to the empty query. *)
Example blank_query :
  id <$> filtered toLowerCaseLatin (lit "   ") = [1; 2; 3; 4; 5; 6; 7; 8].
Proof. vm_compute. reflexivity. Qed.

(** The query "Gigi" matches 16 records; the result stops at the 8th. *)
Example gigi_query :
  id <$> filtered toLowerCaseLatin (lit "Gigi") = [1; 4; 5; 6; 9; 12; 13; 14]
  ∧ length (matching toLowerCaseLatin (lit "gigi")) = 16%nat.
Proof. vm_compute. by split. Qed.

(** * Further properties of the search filter *)

Lemma sublist_fmap_id {A B} (f : A → B) (l1 l2 : list A) :
  l1 `sublist_of` l2 → (f <$> l1) `sublist_of` (f <$> l2).
Proof. induction 1; simpl; by constructor. Qed.

Lemma filter_sublist_impl {A} (f g : A → bool) (l : list A) :
  (∀ x, x ∈ l → f x = true → g x = true) →
  List.filter f l `sublist_of` List.filter g l.
Proof.
  induction l as [|x l IH]; intros Hfg; simpl; [constructor |].
  assert (List.filter f l `sublist_of` List.filter g l) as Hl.
  { apply IH. intros y Hy. apply Hfg. by right. }
  destruct (f x) eqn:Hf.
  - rewrite (Hfg x) by (done || by left). by constructor.
  - destruct (g x); [by constructor | done].
Qed.

Lemma substring_trans (a b c : jsstring) :
  substring a b → substring b c → substring a c.
Proof.
  intros (p1 & s1 & ->) (p2 & s2 & ->).
  exists (p2 ++ p1), (s1 ++ s2). by rewrite <- !app_assoc.
Qed.

(** The branch for the empty query returns what the other branch would
    return: for every query the result is the first 8 matching records. *)
Theorem filtered_uniform (toLowerCase : jsstring → jsstring) (query : jsstring) :
  filtered toLowerCase query
  = take 8 (matching toLowerCase (toLowerCase (trim query))).
Proof.
  destruct (decide (toLowerCase (trim query) = [])) as [Hq|Hq].
  - rewrite Hq, matching_empty. by apply filtered_empty.
  - by apply filtered_nonempty.
Qed.

(** When fewer than 8 results are shown, nothing was cut off: the result
    is the list of all matching records. *)
Theorem filtered_complete_below_cap
    (toLowerCase : jsstring → jsstring) (query : jsstring) :
  (length (filtered toLowerCase query) < 8)%nat →
  filtered toLowerCase query = matching toLowerCase (toLowerCase (trim query))
  ∧ ∀ t, t ∈ toothInfos →
         substring (toLowerCase (trim query)) (toLowerCase (haystack t)) →
         t ∈ filtered toLowerCase query.
Proof.
  rewrite filtered_uniform, length_take. intros Hlen.
  assert (take 8 (matching toLowerCase (toLowerCase (trim query)))
          = matching toLowerCase (toLowerCase (trim query))) as ->
    by (apply take_ge; lia).
  split; [done |]. intros t Ht Hsub. by apply elem_of_matching.
Qed.

Lemma filtered_complete_below_cap_witness :
  (length (filtered toLowerCaseLatin (lit "x-ray")) < 8)%nat
  ∧ filtered toLowerCaseLatin (lit "x-ray")
    = matching toLowerCaseLatin (lit "x-ray").
Proof.
  assert (length (filtered toLowerCaseLatin (lit "x-ray")) < 8)%nat as Hlen
    by (vm_compute; lia).
  split; [exact Hlen |].
  apply (filtered_complete_below_cap toLowerCaseLatin (lit "x-ray") Hlen).
Defined.

(** A longer query narrows the matches: when the normalized query [q]
    occurs in [q'], the records matching [q'] are among those matching
    [q], in the same order. *)
Theorem matching_antitone (toLowerCase : jsstring → jsstring) (q q' : jsstring) :
  substring q q' →
  matching toLowerCase q' `sublist_of` matching toLowerCase q.
Proof.
  intros Hq. unfold matching. apply filter_sublist_impl.
  intros t _. rewrite !includes_spec. by apply substring_trans.
Qed.

Lemma matching_antitone_witness :
  substring (lit "ray") (lit "x-ray")
  ∧ matching toLowerCaseLatin (lit "x-ray")
    `sublist_of` matching toLowerCaseLatin (lit "ray").
Proof.
  assert (substring (lit "ray") (lit "x-ray")) as Hsub
    by (exists (lit "x-"), []; reflexivity).
  split; [exact Hsub |].
  apply (matching_antitone toLowerCaseLatin _ _ Hsub).
Defined.

(** The identifiers of the results, used as React keys of the buttons, are
    pairwise distinct. *)
Theorem filtered_keys_distinct
    (toLowerCase : jsstring → jsstring) (query : jsstring) :
  NoDup (id <$> filtered toLowerCase query).
Proof.
  eapply sublist_NoDup; [apply NoDup_toothInfos_ids |].
  apply sublist_fmap_id, filtered_sublist.
Qed.

(** ** White space around the query and the case of its letters *)

Lemma trimStart_all_ws (s : jsstring) :
  Forall (λ c, isWhiteSpace c = true) s → trimStart s = [].
Proof. induction 1 as [|c s Hc _ IH]; simpl; [done | by rewrite Hc]. Qed.

Lemma trimStart_app_ws (pre s : jsstring) :
  Forall (λ c, isWhiteSpace c = true) pre →
  trimStart (pre ++ s) = trimStart s.
Proof. induction 1 as [|c pre Hc _ IH]; simpl; [done | by rewrite Hc]. Qed.

Lemma trimStart_app (s post : jsstring) :
  trimStart s ≠ [] → trimStart (s ++ post) = trimStart s ++ post.
Proof.
  induction s as [|c s IH]; simpl; [done |].
  destruct (isWhiteSpace c); [exact IH | done].
Qed.

Lemma trimEnd_app_ws (s post : jsstring) :
  Forall (λ c, isWhiteSpace c = true) post → trimEnd (s ++ post) = trimEnd s.
Proof.
  intros Hpost. unfold trimEnd.
  rewrite reverse_app, trimStart_app_ws; [done | by apply Forall_reverse].
Qed.

Lemma trimEnd_nil : trimEnd [] = [].
Proof. reflexivity. Qed.

Lemma trim_pad (pre s post : jsstring) :
  Forall (λ c, isWhiteSpace c = true) pre →
  Forall (λ c, isWhiteSpace c = true) post →
  trim (pre ++ s ++ post) = trim s.
Proof.
  intros Hpre Hpost. unfold trim. rewrite trimStart_app_ws by done.
  destruct (decide (trimStart s = [])) as [Hs|Hs].
  - destruct (trimStart_spec s) as (ws & Heq & Hws & _).
    rewrite Hs, app_nil_r in Heq. subst ws.
    rewrite Hs, trimStart_all_ws; [done |]. by apply Forall_app.
  - rewrite trimStart_app by done. by apply trimEnd_app_ws.
Qed.

Lemma trim_idempotent (s : jsstring) : trim (trim s) = trim s.
Proof.
  destruct (trim_spec s) as (pre & post & Hs & Hpre & Hpost & _).
  rewrite Hs at 2. symmetry. by apply trim_pad.
Qed.

(** White space typed before or after the query does not change the
    result. *)
Theorem filtered_ignores_padding
    (toLowerCase : jsstring → jsstring) (pre query post : jsstring) :
  Forall (λ c, isWhiteSpace c = true) pre →
  Forall (λ c, isWhiteSpace c = true) post →
  filtered toLowerCase (pre ++ query ++ post) = filtered toLowerCase query.
Proof. intros Hpre Hpost. unfold filtered. by rewrite trim_pad. Qed.

Lemma filtered_ignores_padding_witness :
  filtered toLowerCaseLatin (lit "  " ++ lit "mual" ++ [9%N; 160%N])
  = filtered toLowerCaseLatin (lit "mual").
Proof.
  apply (filtered_ignores_padding toLowerCaseLatin);
    repeat constructor.
Defined.

Lemma isWhiteSpace_letter (c : N) :
  (65 ≤ c ≤ 122)%N → isWhiteSpace c = false.
Proof.
  intros Hc. unfold isWhiteSpace.
  rewrite !(proj2 (N.eqb_neq c _)) by lia.
  by rewrite (proj2 (N.leb_gt 8192 c)) by lia.
Qed.

Lemma isWhiteSpace_lowerUnit (c : N) :
  isWhiteSpace (lowerUnit c) = isWhiteSpace c.
Proof.
  unfold lowerUnit. destruct (_ && _)%N eqn:Hup; [| done].
  apply andb_true_iff in Hup as [Hlo%N.leb_le Hhi%N.leb_le].
  rewrite !isWhiteSpace_letter; [done | lia | lia].
Qed.

Lemma trimStart_toLowerCaseLatin (s : jsstring) :
  trimStart (toLowerCaseLatin s) = toLowerCaseLatin (trimStart s).
Proof.
  unfold toLowerCaseLatin. induction s as [|c s IH]; simpl; [done |].
  rewrite isWhiteSpace_lowerUnit. by destruct (isWhiteSpace c).
Qed.

Lemma trim_toLowerCaseLatin (s : jsstring) :
  trim (toLowerCaseLatin s) = toLowerCaseLatin (trim s).
Proof.
  unfold trim, trimEnd. rewrite trimStart_toLowerCaseLatin.
  unfold toLowerCaseLatin at 1. rewrite <- fmap_reverse.
  fold (toLowerCaseLatin (reverse (trimStart s))).
  rewrite trimStart_toLowerCaseLatin. unfold toLowerCaseLatin.
  by rewrite fmap_reverse.
Qed.

(** The search does not distinguish upper and lower case in a query of
    plain code units: two such queries that differ in the case of their
    letters only give the same result. *)
Theorem filtered_case_insensitive
    (toLowerCase : jsstring → jsstring) (q1 q2 : jsstring) :
  LowerOnPlain toLowerCase →
  plain q1 = true → plain q2 = true →
  toLowerCaseLatin q1 = toLowerCaseLatin q2 →
  filtered toLowerCase q1 = filtered toLowerCase q2.
Proof.
  intros Hlow H1 H2 Heq.
  rewrite !(filtered_plain toLowerCase) by done.
  unfold filtered. by rewrite <- !trim_toLowerCaseLatin, Heq.
Qed.

Lemma filtered_case_insensitive_witness :
  filtered toLowerCaseLatin (lit "X-Ray") = filtered toLowerCaseLatin (lit "x-rAY").
Proof.
  apply (filtered_case_insensitive toLowerCaseLatin);
    [exact LowerOnPlain_Latin | reflexivity | reflexivity | reflexivity].
Defined.

(** * Further properties of the catalog *)

Lemma NoDup_names : NoDup names.
Proof. apply (bool_decide_unpack _). vm_compute. exact I. Qed.

Lemma NoDup_tips : NoDup tips.
Proof. apply (bool_decide_unpack _). vm_compute. exact I. Qed.

Lemma toothInfos_names : name <$> toothInfos = names.
Proof. reflexivity. Qed.

(** Every record takes its name from the list of names, so the fallback
    [`Gigi ${id}`] is never used, and no two records have the same name. *)
Theorem catalog_names_distinct :
  (∀ i t, toothInfos !! i = Some t → names !! i = Some (name t))
  ∧ NoDup (name <$> toothInfos)
  ∧ ∀ t, t ∈ toothInfos → ¬ substring (lit "Gigi ") (name t).
Proof.
  split_and!.
  - intros i t Ht. rewrite <- toothInfos_names, list_lookup_fmap. by rewrite Ht.
  - rewrite toothInfos_names. apply NoDup_names.
  - intros t Ht.
    assert (forallb (λ t, negb (includes (name t) (lit "Gigi "))) toothInfos
            = true) as Hall by (vm_compute; reflexivity).
    rewrite forallb_forall in Hall.
    apply list_elem_of_In, Hall, negb_true_iff in Ht.
    rewrite <- includes_spec. by rewrite Ht.
Qed.

Lemma catalog_names_distinct_witness :
  names !! 0%nat = Some (name (toothInfoAt 0)).
Proof.
  apply (proj1 catalog_names_distinct 0%nat (toothInfoAt 0)). reflexivity.
Defined.

(** The tips come round every 8 records: the callback gives the records at
    indices [i] and [i + 8] the same tip, whatever [i]. *)
Theorem tips_period (i : nat) :
  blurb (toothInfoAt (i + 8)) = blurb (toothInfoAt i).
Proof.
  cbn [toothInfoAt blurb]. rewrite length_tips.
  replace ((i + 8) mod 8)%nat with (i mod 8)%nat; [done |].
  change (i + 8)%nat with (i + 1 * 8)%nat.
  by rewrite Nat.Div0.mod_add.
Qed.

(** Two records have the same tip exactly when their identifiers differ by
    a multiple of 8, so each of the 8 tips is the tip of 4 records. *)
Theorem same_tip_iff (t1 t2 : ToothInfo) :
  t1 ∈ toothInfos → t2 ∈ toothInfos →
  blurb t1 = blurb t2 ↔ (id t1 - id t2) mod 8 = 0.
Proof.
  intros H1 H2.
  assert (Forall (λ t1, Forall (λ t2,
            blurb t1 = blurb t2 ↔ (id t1 - id t2) mod 8 = 0)
            toothInfos) toothInfos)
    as Hall by (apply (bool_decide_unpack _); vm_compute; exact I).
  rewrite Forall_forall in Hall. specialize (Hall t1 H1).
  rewrite Forall_forall in Hall. exact (Hall t2 H2).
Qed.

Lemma same_tip_iff_witness :
  blurb (toothInfoAt 5) = blurb (toothInfoAt 29) ↔ (6 - 30) mod 8 = 0.
Proof.
  apply (same_tip_iff (toothInfoAt 5) (toothInfoAt 29));
    apply list_elem_of_In; vm_compute; tauto.
Defined.

(** The active record is found by position: for an identifier from 1 to 32
    it is the record at index [id - 1], and there is none for any other
    number, 0 and the negative ones included. *)
Theorem activeTooth_lookup (v : Z) :
  activeTooth (Some v)
  = if bool_decide (1 ≤ v ≤ 32) then toothInfos !! Z.to_nat (v - 1) else None.
Proof.
  case_bool_decide as Hv.
  - apply toothInfos_id_range in Hv as (t & Ht & <-).
    by rewrite activeTooth_catalog, toothInfos_elem_id.
  - apply activeTooth_None. intros t Ht Hid. apply Hv.
    apply toothInfos_id_range. eauto.
Qed.

(** * Further properties of the selection *)

Lemma TeethScene_lookup (a : option Z) (k : nat) (p : ToothProps) :
  TeethScene a !! k = Some p →
  toothId p = Z.of_nat k + 1 ∧ isActive p = strictEq a (Z.of_nat k + 1).
Proof.
  unfold TeethScene. intros Hk.
  assert (k < 32)%nat as Hlt.
  { apply lookup_lt_Some in Hk.
    by rewrite length_app, !length_TeethRow in Hk. }
  destruct (decide (k < 16)%nat) as [Hup|Hlow].
  - rewrite lookup_app_l in Hk by by rewrite length_TeethRow.
    rewrite TeethRow_lookup in Hk by done. by injection Hk as <-.
  - rewrite lookup_app_r in Hk by (rewrite length_TeethRow; lia).
    rewrite length_TeethRow, TeethRow_lookup in Hk by lia.
    injection Hk as <-. simpl. by replace (Z.of_nat (k - 16) + 17)
      with (Z.of_nat k + 1) by lia.
Qed.

Lemma strictEq_true (a : option Z) (i : Z) : strictEq a i = true ↔ a = Some i.
Proof.
  destruct a as [v|]; simpl; [| done].
  rewrite Z.eqb_eq. split; congruence.
Qed.

(** The highlight follows the selection: a placeholder is drawn active
    exactly when its identifier is the selected one, so at most one
    placeholder is active, one is when the selection is an identifier from
    1 to 32, and none is when nothing is selected. *)
Theorem scene_highlight (a : option Z) :
  (∀ p, p ∈ TeethScene a → isActive p = true ↔ a = Some (toothId p))
  ∧ (∀ k1 k2 p1 p2,
       TeethScene a !! k1 = Some p1 → TeethScene a !! k2 = Some p2 →
       isActive p1 = true → isActive p2 = true → k1 = k2)
  ∧ (∀ v, a = Some v → 1 ≤ v ≤ 32 →
          ∃ p, p ∈ TeethScene a ∧ toothId p = v ∧ isActive p = true)
  ∧ (a = None → ∀ p, p ∈ TeethScene a → isActive p = false).
Proof.
  assert (∀ p, p ∈ TeethScene a → isActive p = true ↔ a = Some (toothId p))
    as Hact.
  { intros p [k Hk]%list_elem_of_lookup.
    apply TeethScene_lookup in Hk as [-> ->]. apply strictEq_true. }
  split_and!.
  - exact Hact.
  - intros k1 k2 p1 p2 H1 H2 A1 A2.
    apply Hact in A1; [| by eapply list_elem_of_lookup_2].
    apply Hact in A2; [| by eapply list_elem_of_lookup_2].
    apply TeethScene_lookup in H1 as [E1 _], H2 as [E2 _]. 
    rewrite A1 in A2. injection A2 as A2. lia.
  - intros v -> Hv.
    assert (v ∈ toothId <$> TeethScene (Some v)) as Hin
      by (rewrite TeethScene_ids, elem_of_seqZ; lia).
    apply list_elem_of_fmap in Hin as (p & -> & Hp).
    exists p. split_and!; [done | done |]. by apply Hact.
  - intros -> p Hp. destruct (isActive p) eqn:Hp'; [| done].
    by apply Hact in Hp'.
Qed.

Lemma scene_highlight_witness :
  ∃ p, p ∈ TeethScene (Some 32) ∧ toothId p = 32 ∧ isActive p = true.
Proof.
  apply (proj1 (proj2 (proj2 (scene_highlight (Some 32)))) 32 eq_refl). lia.
Defined.

(** Whatever the user can click to select opens the panel of the clicked
    record: after a click the screen offers, on a result or on a
    placeholder, the panel shows the name and the tip of the record with
    the clicked identifier, and the placeholder of that identifier is the
    one drawn active. *)
Theorem offered_selection_opens_panel
    (toLowerCase : jsstring → jsstring) (st : State) (e : Event) (i : Z) :
  offered toLowerCase st e →
  selectionWritten e = Some (Some i) →
  ∃ t, toothInfos !! Z.to_nat (i - 1) = Some t
       ∧ id t = i
       ∧ panel (render toLowerCase (handle e st))
         = Some {| cardTitle := name t; cardText := blurb t;
                   cardNote := disclaimer |}
       ∧ ∀ p, p ∈ scene (render toLowerCase (handle e st)) →
              isActive p = true ↔ toothId p = i.
Proof.
  intros He Hsel.
  assert (activeId (handle e st) = Some i) as Hact
    by (destruct e; simpl in *; congruence).
  assert (selectionValid (handle e st)) as Hvalid.
  { destruct e as [q|j|j|]; try discriminate; injection Hsel as ->;
      intros v [= <-]; simpl in He.
    - destruct He as (t & Ht & <-). exists t. split; [| done].
      by eapply filtered_elem_of.
    - destruct He as (p & Hp & <-).
      eapply toothInfos_id_range, TeethScene_id_range, Hp. }
  destruct (Hvalid i Hact) as (t & Ht & <-).
  exists t. split_and!.
  - by apply toothInfos_elem_id.
  - done.
  - unfold render. cbn [panel]. by rewrite Hact, activeTooth_catalog.
  - intros p Hp. unfold render in Hp. cbn [scene] in Hp. rewrite Hact in Hp.
    rewrite (proj1 (scene_highlight (Some (id t))) p Hp).
    split; congruence.
Qed.

Lemma offered_selection_opens_panel_witness :
  ∃ t, toothInfos !! 0%nat = Some t
       ∧ id t = 1
       ∧ panel (render toLowerCaseLatin (handle (ToothClick 1) initial))
         = Some {| cardTitle := name t; cardText := blurb t;
                   cardNote := disclaimer |}
       ∧ ∀ p, p ∈ scene (render toLowerCaseLatin (handle (ToothClick 1) initial)) →
              isActive p = true ↔ toothId p = 1.
Proof.
  apply (offered_selection_opens_panel toLowerCaseLatin initial (ToothClick 1) 1).
  - apply offered_ToothClick. lia.
  - reflexivity.
Defined.

(** The button "Tutup" is on screen exactly when the selection is the
    identifier of a record; pressing it removes the panel, the button
    itself and the highlight, and leaves the query and the results as they
    were. *)
Theorem close_button (toLowerCase : jsstring → jsstring) (st : State) :
  (offered toLowerCase st CloseClick
   ↔ ∃ v, activeId st = Some v ∧ 1 ≤ v ≤ 32)
  ∧ panel (render toLowerCase (handle CloseClick st)) = None
  ∧ ¬ offered toLowerCase (handle CloseClick st) CloseClick
  ∧ (∀ p, p ∈ scene (render toLowerCase (handle CloseClick st)) →
          isActive p = false)
  ∧ results (render toLowerCase (handle CloseClick st))
    = results (render toLowerCase st).
Proof.
  split_and!.
  - change (is_Some (InfoPanel (activeTooth (activeId st)))
            ↔ ∃ v, activeId st = Some v ∧ 1 ≤ v ≤ 32).
    destruct (activeId st) as [v|].
    + rewrite activeTooth_lookup. case_bool_decide as Hv.
      * split; [eauto |]. intros _.
        apply toothInfos_id_range in Hv as (t & Ht & <-).
        rewrite toothInfos_elem_id by done. by eexists.
      * split; [by intros [c Hc] |]. intros (w & [= <-] & Hw). done.
    + split; [by intros [c Hc] | by intros (w & Hw & _)].
  - done.
  - simpl. by intros [c Hc].
  - intros p Hp. by apply (proj2 (proj2 (proj2 (scene_highlight None)))).
  - done.
Qed.

Lemma run_snoc (es : list Event) (e : Event) (st : State) :
  run (es ++ [e]) st = handle e (run es st).
Proof. unfold run. by rewrite foldl_app. Qed.

(** After any sequence of actions each cell holds what the last action
    that writes to it wrote, or its old value if none did: the selection
    is decided by the last click or dismissal, the query by the last
    keystroke, and neither depends on the other actions. *)
Theorem run_last_write (es : list Event) (st : State) :
  activeId (run es st)
  = default (activeId st) (last (omap selectionWritten es))
  ∧ query (run es st) = default (query st) (last (omap queryWritten es)).
Proof.
  induction es as [|e es [IHa IHq]] using rev_ind; [done |].
  rewrite run_snoc, !omap_app.
  destruct e as [v|i|i|]; simpl;
    rewrite ?app_nil_r, ?last_snoc; simpl; by split.
Qed.

(** Typing and selecting commute: a keystroke and a click or a dismissal
    give the same state in either order. *)
Theorem typing_commutes_with_selecting (st : State) (v : jsstring) (e : Event) :
  queryWritten e = None →
  handle (InputChange v) (handle e st) = handle e (handle (InputChange v) st).
Proof. destruct e; simpl; [discriminate | done | done | done]. Qed.

Lemma typing_commutes_with_selecting_witness :
  handle (InputChange (lit "mual")) (handle (ToothClick 7) initial)
  = handle (ToothClick 7) (handle (InputChange (lit "mual")) initial).
Proof.
  apply (typing_commutes_with_selecting initial (lit "mual") (ToothClick 7)).
  reflexivity.
Defined.

(** * The catalog, the search box and the scene together *)

Lemma search_by_name_Latin :
  Forall (λ t, plain (name t) = true
               ∧ t ∈ filtered toLowerCaseLatin (name t)
               ∧ Forall (λ t', includes (toLowerCaseLatin (name t'))
                                        (toLowerCaseLatin (name t)) = true)
                        (filtered toLowerCaseLatin (name t)))
         toothInfos.
Proof. apply (bool_decide_unpack _). vm_compute. exact I. Qed.

(** Typing the name of a tooth finds that tooth.  It may find others, but
    only teeth whose name contains the typed name, as "Premolar kanan atas
    (2nd)" contains "molar kanan atas (2nd)". *)
Theorem search_by_name (toLowerCase : jsstring → jsstring) (t : ToothInfo) :
  LowerOnPlain toLowerCase →
  t ∈ toothInfos →
  t ∈ filtered toLowerCase (name t)
  ∧ ∀ t', t' ∈ filtered toLowerCase (name t) →
          substring (toLowerCaseLatin (name t)) (toLowerCaseLatin (name t')).
Proof.
  intros Hlow Ht.
  destruct (proj1 (Forall_forall _ _) search_by_name_Latin t Ht)
    as (Hp & Hin & Hall).
  rewrite (filtered_plain toLowerCase) by done.
  split; [done |]. intros t' Ht'. apply includes_spec.
  by apply (proj1 (Forall_forall _ _) Hall).
Qed.

Lemma search_by_name_witness :
  toothInfoAt 1 ∈ filtered toLowerCaseLatin (name (toothInfoAt 1)).
Proof.
  apply (search_by_name toLowerCaseLatin (toothInfoAt 1) LowerOnPlain_Latin).
  apply list_elem_of_In. vm_compute. tauto.
Defined.

(** The name of a molar also finds the premolar of the same place. *)
Example search_molar_finds_premolar :
  id <$> filtered toLowerCaseLatin (lit "Molar kanan atas (2nd)") = [2; 4].
Proof. vm_compute. reflexivity. Qed.

Lemma suggestedTerms_Latin :
  Forall (λ q, plain q = true
               ∧ includes searchPlaceholder q = true
               ∧ length (filtered toLowerCaseLatin q) = 4%nat
               ∧ Exists (λ b, Forall (λ t, blurb t = b)
                                     (filtered toLowerCaseLatin q)) tips)
         suggestedTerms.
Proof. apply (bool_decide_unpack _). vm_compute. exact I. Qed.

(** Each of the four terms that the placeholder of the search box suggests
    is found: it returns 4 records, the ones that share one of the tips. *)
Theorem suggested_terms_found (toLowerCase : jsstring → jsstring) :
  LowerOnPlain toLowerCase →
  Forall (λ q, substring q searchPlaceholder
               ∧ length (filtered toLowerCase q) = 4%nat
               ∧ ∃ b, b ∈ tips
                      ∧ Forall (λ t, blurb t = b) (filtered toLowerCase q))
         suggestedTerms.
Proof.
  intros Hlow. eapply Forall_impl; [apply suggestedTerms_Latin |].
  intros q (Hp & Hin & Hlen & Htip).
  rewrite (filtered_plain toLowerCase) by done.
  split_and!; [by apply includes_spec | done |].
  apply Exists_exists in Htip as (b & Hb & Hall). eauto.
Qed.

Lemma suggested_terms_found_witness :
  LowerOnPlain toLowerCaseLatin
  ∧ Forall (λ q, substring q searchPlaceholder
                 ∧ length (filtered toLowerCaseLatin q) = 4%nat
                 ∧ ∃ b, b ∈ tips
                        ∧ Forall (λ t, blurb t = b)
                                 (filtered toLowerCaseLatin q))
           suggestedTerms.
Proof.
  split; [exact LowerOnPlain_Latin |].
  apply (suggested_terms_found toLowerCaseLatin LowerOnPlain_Latin).
Defined.

Local Ltac settle_iff :=
  split; intros ?H;
  first [ by vm_compute
        | match goal with H : _ |- _ => by vm_compute in H end
        | match goal with
          | H : substring _ _ |- _ =>
              apply includes_spec in H; by vm_compute in H
          end
        | apply includes_spec; by vm_compute ].

(** The placeholder at position [k] of the scene stands for the record at
    position [k] of the catalog, and the place agrees with the name: the
    row above ([y > 0]) holds the teeth named "atas" and the row below
    those named "bawah", as the comment on line 163 says; the half with
    [x < 0] holds the teeth named "kanan" and the other half those named
    "kiri". *)
Theorem layout_matches_names
    (a : option Z) (k : nat) (p : ToothProps) (t : ToothInfo) :
  TeethScene a !! k = Some p → toothInfos !! k = Some t →
  toothId p = id t
  ∧ ((0 < (position p).1.2)%Q ↔ substring (lit "atas") (name t))
  ∧ (((position p).1.2 < 0)%Q ↔ substring (lit "bawah") (name t))
  ∧ (((position p).1.1 < 0)%Q ↔ substring (lit "kanan") (name t))
  ∧ ((0 < (position p).1.1)%Q ↔ substring (lit "kiri") (name t)).
Proof.
  intros Hp Ht.
  assert (k < 32)%nat as Hk
    by (rewrite <- length_toothInfos; by eapply lookup_lt_Some).
  do 32 (destruct k as [|k];
         [injection Hp as <-; injection Ht as <-;
          split_and!; [reflexivity | settle_iff ..] |]).
  lia.
Qed.

Lemma layout_matches_names_witness :
  ∃ p t, TeethScene None !! 16%nat = Some p
         ∧ toothInfos !! 16%nat = Some t
         ∧ toothId p = id t
         ∧ (((position p).1.2 < 0)%Q ↔ substring (lit "bawah") (name t)).
Proof.
  eexists _, _. split; [reflexivity |]. split; [reflexivity |].
  refine (let H := layout_matches_names None 16 _ _ eq_refl eq_refl in _).
  split; [apply H | apply H].
Defined.

(** * The [Tooth] component *)

(** A tooth is tinted exactly when it is drawn enlarged, that is when it is
    active or hovered; the colour of the active state wins over the colour
    of the hover. *)
Theorem tooth_tinted_iff_enlarged (isActive hovered : bool) :
  (toothColor isActive hovered ≠ lit "#ffffff"
   ↔ targetScale isActive hovered = 1.12%Q)
  ∧ (toothColor isActive hovered = lit "#ffffff"
     ↔ isActive = false ∧ hovered = false)
  ∧ (isActive = true → toothColor isActive hovered = lit "#87CEFA").
Proof.
  destruct isActive, hovered; vm_compute; split_and!;
    (split || idtac); intros; try done; try discriminate;
    by (destruct_and?; discriminate).
Qed.

Lemma approach_between (target s : Q) :
  ((s <= target → s <= approach target s <= target)
   ∧ (target <= s → target <= approach target s <= s))%Q.
Proof. unfold approach. split; intros H; split; lra. Qed.

Lemma targetScale_range (isActive hovered : bool) :
  (1 <= targetScale isActive hovered <= 1.12)%Q.
Proof. unfold targetScale. destruct (_ || _); split; lra. Qed.

Lemma approach_range (isActive hovered : bool) (s : Q) :
  (1 <= s <= 1.12 → 1 <= approach (targetScale isActive hovered) s <= 1.12)%Q.
Proof.
  intros Hs. pose proof (targetScale_range isActive hovered) as Ht.
  unfold approach. split; lra.
Qed.

(** In exact arithmetic, a frame never takes the scale out of the range
    from 1 to 1.12 in which the targets lie, and it does nothing while the
    mesh is not mounted. *)
Theorem frame_keeps_range (isActive hovered : bool) (sx sy sz : Q) :
  (1 <= sx <= 1.12)%Q → (1 <= sy <= 1.12)%Q → (1 <= sz <= 1.12)%Q →
  frame isActive hovered None = None
  ∧ ∃ sx' sy' sz',
      frame isActive hovered (Some (sx, sy, sz)) = Some (sx', sy', sz')
      ∧ (1 <= sx' <= 1.12)%Q ∧ (1 <= sy' <= 1.12)%Q ∧ (1 <= sz' <= 1.12)%Q.
Proof.
  intros Hx Hy Hz. split; [done |].
  eexists _, _, _. split; [reflexivity |].
  split_and!; by apply approach_range.
Qed.

Lemma frame_keeps_range_witness :
  ∃ sx' sy' sz',
    frame true false (Some (1%Q, 1%Q, 1%Q)) = Some (sx', sy', sz')
    ∧ (1 <= sx' <= 1.12)%Q ∧ (1 <= sy' <= 1.12)%Q ∧ (1 <= sz' <= 1.12)%Q.
Proof.
  apply (frame_keeps_range true false 1 1 1); split; vm_compute; discriminate.
Defined.

